(** * WearableAI backend: the audio-to-advice endpoint

    A shallow embedding of [server/main.py]: the [process_audio] handler
    (POST /process_audio) and the [root] handler (GET /), together with the
    few Python built-ins they rely on.  The two OpenAI services are external
    collaborators; their answers are read from a [World] and every call made
    to them is recorded in a trace, so that "is invoked" and "is never
    invoked" are statements about that trace.

    Conventions.
    - A Python [str] is represented by its UTF-8 encoding, a [string] of
      bytes.  String literals of the source are copied as they are.
    - Calls to [logger] only write to the process log: they do not raise and
      do not influence the response, and are left out.
    - Module start-up (lines 1-43: API key, client, CORS) runs once before
      any request and is not part of the handlers. *)

From Stdlib Require Import String Ascii List ZArith QArith Bool Lia.
From ExtLib Require Import Structures.Monad.
Import ListNotations.
Import MonadNotation.

Local Close Scope Q_scope.
Local Open Scope list_scope.
Local Open Scope string_scope.

(* ================================================================== *)
(** ** Python strings *)
(* ================================================================== *)

Module PyStr.

Definition str := string.

(** The line-feed character, written [\n] in the source. *)
Definition nl : str := String "010" "".

(** [bool(s)] for a string: true exactly when [s] is not empty. *)
Definition truthy (s : str) : bool :=
  match s with
  | EmptyString => false
  | String _ _ => true
  end.

(** [bool(o)] for an [Optional[str]]: [None] and [''] are both false. *)
Definition truthy_opt (o : option str) : bool :=
  match o with
  | None => false
  | Some s => truthy s
  end.

(** [o == lit] for an [Optional[str]] against a string literal. *)
Definition eq_lit (o : option str) (lit : str) : bool :=
  match o with
  | None => false
  | Some s => String.eqb s lit
  end.

(** [sub in s]. *)
Definition contains (sub s : str) : Prop :=
  exists pre post, s = pre ++ sub ++ post.

Definition of_bytes (bs : list N) : str :=
  string_of_list_ascii (map ascii_of_N bs).

Definition rev (s : str) : str :=
  string_of_list_ascii (List.rev (list_ascii_of_string s)).

(** The code points for which [str.isspace] holds and which [str.strip()]
    removes, each as its UTF-8 encoding: U+0009..U+000D, U+001C..U+001F,
    U+0020, U+0085, U+00A0, U+1680, U+2000..U+200A, U+2028, U+2029,
    U+202F, U+205F, U+3000. *)
Definition whitespace : list str :=
  map of_bytes
    [ [0x09]; [0x0A]; [0x0B]; [0x0C]; [0x0D];
      [0x1C]; [0x1D]; [0x1E]; [0x1F]; [0x20];
      [0xC2; 0x85]; [0xC2; 0xA0];
      [0xE1; 0x9A; 0x80];
      [0xE2; 0x80; 0x80]; [0xE2; 0x80; 0x81]; [0xE2; 0x80; 0x82];
      [0xE2; 0x80; 0x83]; [0xE2; 0x80; 0x84]; [0xE2; 0x80; 0x85];
      [0xE2; 0x80; 0x86]; [0xE2; 0x80; 0x87]; [0xE2; 0x80; 0x88];
      [0xE2; 0x80; 0x89]; [0xE2; 0x80; 0x8A];
      [0xE2; 0x80; 0xA8]; [0xE2; 0x80; 0xA9]; [0xE2; 0x80; 0xAF];
      [0xE2; 0x81; 0x9F];
      [0xE3; 0x80; 0x80] ]%N.

(** [drop_prefix p s] is the rest of [s] after [p], when [s] starts
    with [p]. *)
Fixpoint drop_prefix (p s : str) : option str :=
  match p, s with
  | EmptyString, _ => Some s
  | String a p', String b s' =>
      if Ascii.eqb a b then drop_prefix p' s' else None
  | String _ _, EmptyString => None
  end.

(** Removes one leading character of the table [ws], if there is one. *)
Fixpoint drop_one (ws : list str) (s : str) : option str :=
  match ws with
  | [] => None
  | w :: ws' =>
      match drop_prefix w s with
      | Some s' => Some s'
      | None => drop_one ws' s
      end
  end.

Fixpoint lstrip_fuel (ws : list str) (fuel : nat) (s : str) : str :=
  match fuel with
  | O => s
  | S fuel' =>
      match drop_one ws s with
      | Some s' => lstrip_fuel ws fuel' s'
      | None => s
      end
  end.

(** Every character takes at least one byte, so [length s] rounds are
    enough to remove all leading characters of the table. *)
Definition lstrip_with (ws : list str) (s : str) : str :=
  lstrip_fuel ws (String.length s) s.

Definition lstrip (s : str) : str := lstrip_with whitespace s.

Definition rstrip (s : str) : str :=
  rev (lstrip_with (map rev whitespace) (rev s)).

(** [s.strip()]: leading and trailing whitespace removed. *)
Definition strip (s : str) : str := rstrip (lstrip s).

(** [spaces ws s]: [s] is made of characters of the table [ws] only. *)
Inductive spaces (ws : list str) : str -> Prop :=
| spaces_nil : spaces ws ""
| spaces_cons (w s : str) : In w ws -> spaces ws s -> spaces ws (w ++ s).

End PyStr.
Import PyStr.

(* ================================================================== *)
(** ** Data model *)
(* ================================================================== *)

Definition bytes := list Byte.byte.

(** The [UploadFile] received in the multipart field [audio_file]: its
    optional file name, its optional declared content type and the bytes
    that [read()] yields. *)
Record UploadFile := {
  filename : option str;
  content_type : option str;
  file : bytes
}.

(** What the code under a [try] can raise.  The handlers tell an
    [OpenAIError] (the provider's error class and its subclasses) from any
    other [Exception]; [msg] is [str(e)].  Only subclasses of [Exception]
    are covered: what derives from [BaseException] alone (an interrupt, an
    exit of the interpreter) is caught by neither handler and is no outcome
    of a service. *)
Inductive exn :=
| OpenAIError (msg : str)
| OtherException (msg : str).

(** [str(e)], which is what [f"...{e}"] interpolates. *)
Definition exn_str (e : exn) : str :=
  match e with
  | OpenAIError msg => msg
  | OtherException msg => msg
  end.

(** [fastapi.HTTPException(status_code=..., detail=...)]. *)
Record HTTPException := {
  status_code : Z;
  detail : str
}.

(** The transcription service's answer: an object with a [text]. *)
Record Transcription := { text : str }.

(** The chat service's answer: [choices[i].message.content], where
    [content] is an [Optional[str]]. *)
Record ChatCompletionMessage := { content : option str }.
Record Choice := { message : ChatCompletionMessage }.
Record ChatCompletion := { choices : list Choice }.

(** The keyword arguments of [client.audio.transcriptions.create]; the
    [file] argument is the tuple (file name, data, content type). *)
Record TranscriptionArgs := {
  transcription_model : str;
  file_tuple : str * bytes * option str
}.

(** One entry of [messages]: the dict with the keys "role" and "content". *)
Record MessageParam := {
  role : str;
  message_content : str
}.

(** The keyword arguments of [client.chat.completions.create]. *)
Record ChatArgs := {
  chat_model : str;
  messages : list MessageParam;
  temperature : Q;
  max_tokens : Z
}.

(** The dict returned by [process_audio]. *)
Record ResponseRecord := {
  transcription : str;
  advice : str
}.

(** The dict returned by [root]. *)
Record StatusMessage := { message_text : str }.

(* ================================================================== *)
(** ** Effects: external calls, exceptions, try/except *)
(* ================================================================== *)

Inductive Outcome (E A : Type) :=
| Return (a : A)
| Raise (e : E).
Arguments Return {E A} a.
Arguments Raise {E A} e.

(** The collaborators of one request: whether reading the upload fails,
    and what each OpenAI service answers to a given call. *)
Record World := {
  read_failure : option exn;
  audio_transcriptions_create : TranscriptionArgs -> Outcome exn Transcription;
  chat_completions_create : ChatArgs -> Outcome exn ChatCompletion
}.

(** A call that left the process. *)
Inductive Call :=
| CallTranscription (args : TranscriptionArgs)
| CallChat (args : ChatArgs).

(** A computation that may raise an [E], run against a world, appending
    the calls it makes to the trace of the calls made so far. *)
Definition M (E A : Type) : Type :=
  World -> list Call -> Outcome E A * list Call.

Definition M_ret {E A} (a : A) : M E A :=
  fun _ tr => (Return a, tr).

Definition M_bind {E A B} (c : M E A) (k : A -> M E B) : M E B :=
  fun w tr =>
    match c w tr with
    | (Return a, tr') => k a w tr'
    | (Raise e, tr') => (Raise e, tr')
    end.

#[global] Instance Monad_M {E} : Monad (M E) := {
  ret := @M_ret E;
  bind := @M_bind E
}.

(** [raise e]. *)
Definition raise {E A} (e : E) : M E A :=
  fun _ tr => (Raise e, tr).

(** A pure step that may raise. *)
Definition lift {E A} (o : Outcome E A) : M E A :=
  fun _ tr => (o, tr).

(** [try: body / except ... as e: handler e].  An exception raised by the
    handler itself is not caught again, so the handler may raise at another
    type than the body. *)
Definition try_except {E E' A} (body : M E A) (handler : E -> M E' A) : M E' A :=
  fun w tr =>
    match body w tr with
    | (Return a, tr') => (Return a, tr')
    | (Raise e, tr') => handler e w tr'
    end.

(** [await audio_file.read()]. *)
Definition read (f : UploadFile) : M exn bytes :=
  fun w tr =>
    match read_failure w with
    | Some e => (Raise e, tr)
    | None => (Return (file f), tr)
    end.

(** [client.audio.transcriptions.create(...)]. *)
Definition transcriptions_create (args : TranscriptionArgs) : M exn Transcription :=
  fun w tr => (audio_transcriptions_create w args, tr ++ [CallTranscription args])%list.

(** [client.chat.completions.create(...)]. *)
Definition completions_create (args : ChatArgs) : M exn ChatCompletion :=
  fun w tr => (chat_completions_create w args, tr ++ [CallChat args])%list.

(** [l[0]]. *)
Definition getitem0 {A} (l : list A) : Outcome exn A :=
  match l with
  | x :: _ => Return x
  | [] => Raise (OtherException "list index out of range")
  end.

(** [c.strip()] for an [Optional[str]]. *)
Definition strip_method (c : option str) : Outcome exn str :=
  match c with
  | Some s => Return (strip s)
  | None => Raise (OtherException "'NoneType' object has no attribute 'strip'")
  end.

(* ================================================================== *)
(** ** The handlers of [server/main.py] *)
(* ================================================================== *)

Local Open Scope monad_scope.

(** Lines 75-87: the file name guessed from the declared content type,
    with "audio.webm" as the default. *)
Definition guess_from_content_type (content_type : option str) : str :=
  if eq_lit content_type "audio/mpeg" then
    "audio.mp3"
  else if eq_lit content_type "audio/wav" then
    "audio.wav"
  else if eq_lit content_type "audio/ogg" then
    "audio.ogg"
  else if eq_lit content_type "audio/mp4" || eq_lit content_type "video/mp4" then
    "audio.mp4"
  else if eq_lit content_type "audio/m4a" then
    "audio.m4a"
  else
    "audio.webm".

(** Lines 72-89: [filename_for_api].  The test [not audio_file.filename]
    holds for [None] and for the empty string. *)
Definition filename_for_api (audio_file : UploadFile) : str :=
  match filename audio_file with
  | None => guess_from_content_type (content_type audio_file)
  | Some name =>
      if negb (truthy name) then
        guess_from_content_type (content_type audio_file)
      else
        name
  end.

(** Line 121. *)
Definition system_prompt : str :=
  "Actúas como un asistente social inteligente. Has escuchado la conversación transcrita del usuario en un entorno de trabajo. Si detectas una oportunidad para ayudarlo a expresarse mejor, calmar tensiones, ser más claro o socialmente hábil, genera una frase corta y útil. Sé empático, proactivo y no invasivo.".

(** Line 122. *)
Definition user_message (transcription_text : str) : str :=
  "Conversación transcrita:" ++ nl ++ nl ++ transcription_text ++ nl ++ nl
  ++ "¿Qué consejo sutil podrías ofrecer en este momento?".

(** Lines 124-132: the arguments of the chat call. *)
Definition chat_args (transcription_text : str) : ChatArgs :=
  {| chat_model := "gpt-4o";
     messages :=
       [ {| role := "system"; message_content := system_prompt |};
         {| role := "user"; message_content := user_message transcription_text |} ];
     temperature := 0.7;
     max_tokens := 100 |}.

(** Lines 92-102: the arguments of the transcription call. *)
Definition transcription_args (audio_file : UploadFile) (audio_data : bytes)
  : TranscriptionArgs :=
  {| transcription_model := "whisper-1";
     file_tuple := (filename_for_api audio_file, audio_data, content_type audio_file) |}.

(** Lines 57-105: the body of the first [try]. *)
Definition transcription_block (audio_file : UploadFile) : M exn str :=
  audio_data <- read audio_file ;;
  transcription_response <-
    transcriptions_create (transcription_args audio_file audio_data) ;;
  ret (text transcription_response).

(** Lines 108-113: the handlers of the first [try]. *)
Definition transcription_handler (e : exn) : M HTTPException str :=
  match e with
  | OpenAIError _ =>
      raise {| status_code := 500;
               detail := "Whisper API error: " ++ exn_str e |}
  | OtherException _ =>
      raise {| status_code := 500;
               detail := "Failed to transcribe audio: " ++ exn_str e |}
  end.

(** Lines 119-133: the body of the second [try]. *)
Definition advice_block (transcription_text : str) : M exn str :=
  completion_response <- completions_create (chat_args transcription_text) ;;
  choice <- lift (getitem0 (choices completion_response)) ;;
  lift (strip_method (content (message choice))).

(** Lines 136-142: the handlers of the second [try]. *)
Definition advice_handler {E} (e : exn) : M E str :=
  match e with
  | OpenAIError _ => ret "Error generating advice from LLM."
  | OtherException _ => ret "Error generating advice."
  end.

(** Lines 116-145: the advice for a transcription. *)
Definition advice_step {E} (transcription_text : str) : M E str :=
  if truthy transcription_text then
    try_except (advice_block transcription_text) advice_handler
  else
    ret "Transcription failed, cannot generate advice.".

(** Lines 46-149: POST /process_audio. *)
Definition process_audio (audio_file : UploadFile) : M HTTPException ResponseRecord :=
  transcription_text <-
    try_except (transcription_block audio_file) transcription_handler ;;
  advice_text <- advice_step transcription_text ;;
  ret {| transcription := transcription_text; advice := advice_text |}.

(** Lines 152-154: GET /. *)
Definition root {E} : M E StatusMessage :=
  ret {| message_text := "Wearable AI Backend is running" |}.

(* ------------------------------------------------------------------ *)
(** *** What the framework sends for a handler's outcome *)

(** A JSON object whose values are strings, as its list of members. *)
Definition JSON := list (str * str).

Record HTTPResponse := {
  status : Z;
  body : JSON
}.

Definition json_of_record (r : ResponseRecord) : JSON :=
  [("transcription", transcription r); ("advice", advice r)].

Definition json_of_status (m : StatusMessage) : JSON :=
  [("message", message_text m)].

(** A returned dict is sent as JSON with status 200; a raised
    [HTTPException] is sent with its status code and the body
    [{"detail": detail}]. *)
Definition respond {A} (to_json : A -> JSON) (o : Outcome HTTPException A)
  : HTTPResponse :=
  match o with
  | Return a => {| status := 200; body := to_json a |}
  | Raise e =>
      {| status := status_code e; body := [("detail", detail e)] |}
  end.

(** One request served in a world: the response and the calls made. *)
Definition post_process_audio (w : World) (audio_file : UploadFile)
  : HTTPResponse * list Call :=
  let (o, tr) := process_audio audio_file w [] in
  (respond json_of_record o, tr).

Definition get_root (w : World) : HTTPResponse * list Call :=
  let (o, tr) := root w [] in
  (respond json_of_status o, tr).

(* ------------------------------------------------------------------ *)
(** *** Reading a trace *)

Definition chat_calls (tr : list Call) : list ChatArgs :=
  flat_map (fun c => match c with CallChat a => [a] | CallTranscription _ => [] end) tr.

Definition transcription_calls (tr : list Call) : list TranscriptionArgs :=
  flat_map (fun c => match c with CallTranscription a => [a] | CallChat _ => [] end) tr.

(** The file names sent to the transcription service. *)
Definition sent_filenames (tr : list Call) : list str :=
  map (fun a => fst (fst (file_tuple a))) (transcription_calls tr).

(** The content of the messages with role "user" of a chat call. *)
Definition user_messages (a : ChatArgs) : list str :=
  map message_content (filter (fun m => String.eqb (role m) "user") (messages a)).

(* ------------------------------------------------------------------ *)
(** *** The lookup table of the specification *)

(** The content types the specification lists, each with the file name it
    stands for. *)
Definition spec_table : list (str * str) :=
  [ ("audio/mpeg", "audio.mp3");
    ("audio/wav", "audio.wav");
    ("audio/ogg", "audio.ogg");
    ("audio/mp4", "audio.mp4");
    ("video/mp4", "audio.mp4");
    ("audio/m4a", "audio.m4a") ].

Fixpoint assoc (k : str) (table : list (str * str)) : option str :=
  match table with
  | [] => None
  | (k', v) :: table' => if String.eqb k k' then Some v else assoc k table'
  end.

(** The file name of the specification for a declared content type:
    the table's entry, and "audio.webm" for any other or absent type. *)
Definition spec_lookup (content_type : option str) : str :=
  match content_type with
  | None => "audio.webm"
  | Some ct =>
      match assoc ct spec_table with
      | Some name => name
      | None => "audio.webm"
      end
  end.

(* ------------------------------------------------------------------ *)
(** *** Sample uploads and worlds *)

Definition riff : bytes := [Byte.x52; Byte.x49; Byte.x46; Byte.x46].
Definition ogg_s : bytes := [Byte.x4f; Byte.x67; Byte.x67; Byte.x53].

(** A recording sent without a file name. *)
Definition wav_upload : UploadFile :=
  {| filename := None; content_type := Some "audio/wav"; file := riff |}.

(** The same metadata with other bytes. *)
Definition wav_upload' : UploadFile :=
  {| filename := None; content_type := Some "audio/wav"; file := ogg_s |}.

(** A named upload. *)
Definition named_upload : UploadFile :=
  {| filename := Some "nota.m4a"; content_type := Some "audio/m4a"; file := riff |}.

(** An upload whose file name is present but empty. *)
Definition empty_name_upload : UploadFile :=
  {| filename := Some ""; content_type := Some "audio/wav"; file := riff |}.

Definition one_choice (c : option str) : ChatCompletion :=
  {| choices := [ {| message := {| content := c |} |} ] |}.

(** Both services answer: the scenario of the specification. *)
Definition world_ok : World :=
  {| read_failure := None;
     audio_transcriptions_create := fun _ =>
       Return {| text := "hola, necesito ayuda" |};
     chat_completions_create := fun _ =>
       Return (one_choice (Some (" Tal vez podrías pedir ayuda directamente." ++ nl))) |}.

(** The transcription service hears nothing. *)
Definition world_silence : World :=
  {| read_failure := None;
     audio_transcriptions_create := fun _ => Return {| text := "" |};
     chat_completions_create := fun _ => Return (one_choice (Some "no")) |}.

(** The transcription service fails with a provider error. *)
Definition world_whisper_down : World :=
  {| read_failure := None;
     audio_transcriptions_create := fun _ =>
       Raise (OpenAIError "Connection error.");
     chat_completions_create := fun _ => Return (one_choice (Some "no")) |}.

(** Reading the upload fails. *)
Definition world_read_fails : World :=
  {| read_failure := Some (OtherException "I/O operation on closed file.");
     audio_transcriptions_create := fun _ => Return {| text := "hola" |};
     chat_completions_create := fun _ => Return (one_choice (Some "no")) |}.

(** The chat service fails with a provider error. *)
Definition world_llm_down : World :=
  {| read_failure := None;
     audio_transcriptions_create := fun _ =>
       Return {| text := " hola, necesito ayuda " |};
     chat_completions_create := fun _ =>
       Raise (OpenAIError "Rate limit reached.") |}.

(** The chat service fails with something else. *)
Definition world_llm_broken : World :=
  {| read_failure := None;
     audio_transcriptions_create := fun _ =>
       Return {| text := "hola, necesito ayuda" |};
     chat_completions_create := fun _ =>
       Raise (OtherException "unexpected keyword argument") |}.

(** The chat service answers without any choice. *)
Definition world_no_choice : World :=
  {| read_failure := None;
     audio_transcriptions_create := fun _ =>
       Return {| text := "hola, necesito ayuda" |};
     chat_completions_create := fun _ => Return {| choices := [] |} |}.

(** The chat service answers with a choice that has no content. *)
Definition world_null_content : World :=
  {| read_failure := None;
     audio_transcriptions_create := fun _ =>
       Return {| text := "hola, necesito ayuda" |};
     chat_completions_create := fun _ => Return (one_choice None) |}.

(** The chat service answers with a text that needs no trimming. *)
Definition world_plain : World :=
  {| read_failure := None;
     audio_transcriptions_create := fun _ => Return {| text := "hola" |};
     chat_completions_create := fun _ =>
       Return (one_choice (Some "Pide ayuda, sin prisa.")) |}.

(** The chat service answers with blanks only. *)
Definition world_blank_answer : World :=
  {| read_failure := None;
     audio_transcriptions_create := fun _ => Return {| text := "hola" |};
     chat_completions_create := fun _ =>
       Return (one_choice (Some ("  " ++ nl))) |}.

(* ------------------------------------------------------------------ *)
(** *** Module start-up *)

(** Lines 16-26, run once when the module is loaded.  [getenv] is
    [os.getenv] as it answers after [load_dotenv()]; [OpenAI] is the
    client's constructor, called with [api_key=...], which returns a
    client or raises.  The test [not api_key] holds for [None] and for the
    empty string; the [ValueError] raised then is an ordinary exception
    whose [str] is its message.  An exception of the constructor is logged
    and raised again. *)
Definition startup {Client} (getenv : str -> option str)
    (OpenAI : str -> Outcome exn Client) : Outcome exn Client :=
  match getenv "OPENAI_API_KEY" with
  | None => Raise (OtherException "OPENAI_API_KEY environment variable not set.")
  | Some api_key =>
      if negb (truthy api_key) then
        Raise (OtherException "OPENAI_API_KEY environment variable not set.")
      else
        match OpenAI api_key with
        | Return client => Return client
        | Raise e => Raise e
        end
  end.

(** Sample environments, and a constructor that keeps the key it is
    given. *)
Definition env_with_key (name : str) : option str :=
  if String.eqb name "OPENAI_API_KEY" then Some "sk-test" else None.

Definition env_empty_key (name : str) : option str :=
  if String.eqb name "OPENAI_API_KEY" then Some "" else None.

Definition keep_key (api_key : str) : Outcome exn str := Return api_key.

(* ================================================================== *)
(** ** Strings and [strip] *)
(* ================================================================== *)

Lemma append_nil_r (s : str) : s ++ "" = s.
Proof. induction s as [|a s IH]; cbn; [reflexivity | now rewrite IH]. Qed.

Lemma append_assoc (a b c : str) : (a ++ b) ++ c = a ++ (b ++ c).
Proof. induction a as [|x a IH]; cbn; [reflexivity | now rewrite IH]. Qed.

Lemma contains_suffix (pre s : str) : contains s (pre ++ s).
Proof. exists pre, "". now rewrite append_nil_r. Qed.

Lemma length_append (a b : str) :
  String.length (a ++ b) = String.length a + String.length b.
Proof. induction a as [|x a IH]; cbn; [reflexivity | now rewrite IH]. Qed.

Lemma drop_prefix_spec (p s r : str) :
  drop_prefix p s = Some r <-> s = p ++ r.
Proof.
  revert s. induction p as [|a p IH]; intros s; cbn.
  - split; congruence.
  - destruct s as [|b s]; [split; discriminate|].
    destruct (Ascii.eqb_spec a b) as [->|Hab].
    + rewrite IH. split; congruence.
    + split; congruence.
Qed.

Lemma drop_one_Some (ws : list str) (s r : str) :
  drop_one ws s = Some r -> exists w, In w ws /\ s = w ++ r.
Proof.
  induction ws as [|w ws IH]; cbn; [discriminate|].
  destruct (drop_prefix w s) as [r'|] eqn:Hd.
  - intros [= ->]. apply drop_prefix_spec in Hd. eauto.
  - intros H. destruct (IH H) as (w' & Hin & Hs). eauto.
Qed.

Lemma drop_one_None (ws : list str) (s : str) :
  drop_one ws s = None <-> forall w r, In w ws -> s <> w ++ r.
Proof.
  induction ws as [|w ws IH]; cbn.
  - split; [intros _ w r [] | reflexivity].
  - destruct (drop_prefix w s) as [r'|] eqn:Hd.
    + apply drop_prefix_spec in Hd. split; [discriminate|].
      intros H. exfalso. apply (H w r'); auto.
    + rewrite IH. split.
      * intros H w' r [<-|Hin]; [|now apply H].
        intros Hs. apply drop_prefix_spec in Hs. congruence.
      * intros H w' r Hin. apply H. now right.
Qed.

Lemma spaces_app (ws : list str) (a b : str) :
  spaces ws a -> spaces ws b -> spaces ws (a ++ b).
Proof.
  induction 1 as [|w s Hin Hs IH]; intros Hb; cbn; [exact Hb|].
  rewrite append_assoc. constructor; auto.
Qed.

Lemma spaces_one (ws : list str) (w : str) : In w ws -> spaces ws w.
Proof.
  intros Hin. rewrite <- (append_nil_r w). constructor; [exact Hin | constructor].
Qed.

(** What [lstrip_fuel] removes is made of characters of the table. *)
Lemma lstrip_fuel_split (ws : list str) (fuel : nat) (s : str) :
  exists pre, spaces ws pre /\ s = pre ++ lstrip_fuel ws fuel s.
Proof.
  revert s. induction fuel as [|n IH]; intros s; cbn.
  - exists "". split; [constructor | reflexivity].
  - destruct (drop_one ws s) as [r|] eqn:Hd.
    + destruct (drop_one_Some ws s r Hd) as (w & Hin & ->).
      destruct (IH r) as (pre & Hpre & Hr).
      exists (w ++ pre). split; [now constructor|].
      rewrite append_assoc. now rewrite <- Hr.
    + exists "". split; [constructor | reflexivity].
Qed.

(** With fuel for every byte, nothing of the table is left in front. *)
Lemma lstrip_fuel_done (ws : list str) (fuel : nat) (s : str) :
  Forall (fun w => w <> "") ws ->
  String.length s <= fuel ->
  drop_one ws (lstrip_fuel ws fuel s) = None.
Proof.
  intros Hne. revert s. induction fuel as [|n IH]; intros s Hlen; cbn.
  - destruct s; [|cbn in Hlen; lia].
    apply drop_one_None. intros w r Hin Hs.
    rewrite Forall_forall in Hne. apply (Hne w Hin).
    destruct w; [reflexivity | discriminate].
  - destruct (drop_one ws s) as [r|] eqn:Hd; [|exact Hd].
    apply IH. destruct (drop_one_Some ws s r Hd) as (w & Hin & ->).
    rewrite length_append in Hlen.
    rewrite Forall_forall in Hne. specialize (Hne w Hin).
    destruct w; [congruence | cbn in Hlen; lia].
Qed.

Lemma list_ascii_of_string_app (a b : str) :
  list_ascii_of_string (a ++ b)
  = (list_ascii_of_string a ++ list_ascii_of_string b)%list.
Proof. induction a as [|x a IH]; cbn; [reflexivity | now rewrite IH]. Qed.

Lemma string_of_list_ascii_app (a b : list ascii) :
  string_of_list_ascii (a ++ b)%list
  = string_of_list_ascii a ++ string_of_list_ascii b.
Proof. induction a as [|x a IH]; cbn; [reflexivity | now rewrite IH]. Qed.

Lemma rev_app (a b : str) : rev (a ++ b) = rev b ++ rev a.
Proof.
  unfold rev.
  now rewrite list_ascii_of_string_app, List.rev_app_distr, string_of_list_ascii_app.
Qed.

Lemma rev_involutive (s : str) : rev (rev s) = s.
Proof.
  unfold rev.
  now rewrite list_ascii_of_string_of_list_ascii, List.rev_involutive,
    string_of_list_ascii_of_string.
Qed.

Lemma rev_empty (s : str) : rev s = "" -> s = "".
Proof. intros H. rewrite <- (rev_involutive s), H. reflexivity. Qed.

Lemma spaces_rev (ws : list str) (s : str) :
  spaces (map rev ws) s -> spaces ws (rev s).
Proof.
  induction 1 as [|w s Hin Hs IH]; [constructor|].
  rewrite rev_app. apply spaces_app; [exact IH|].
  apply in_map_iff in Hin. destruct Hin as (w0 & <- & Hin0).
  rewrite rev_involutive. now apply spaces_one.
Qed.

Lemma whitespace_nonempty : Forall (fun w => w <> "") whitespace.
Proof. repeat constructor; discriminate. Qed.

Lemma rev_whitespace_nonempty : Forall (fun w => w <> "") (map rev whitespace).
Proof. repeat constructor; discriminate. Qed.

(** [lstrip] removes whitespace in front, and all of it. *)
Lemma lstrip_spec (s : str) :
  (exists pre, spaces whitespace pre /\ s = pre ++ lstrip s)
  /\ drop_one whitespace (lstrip s) = None.
Proof.
  split.
  - apply lstrip_fuel_split.
  - apply lstrip_fuel_done; [apply whitespace_nonempty | apply le_n].
Qed.

(** [rstrip] removes whitespace at the end, and all of it. *)
Lemma rstrip_spec (s : str) :
  (exists post, spaces whitespace post /\ s = rstrip s ++ post)
  /\ drop_one (map rev whitespace) (rev (rstrip s)) = None.
Proof.
  unfold rstrip, lstrip_with. split.
  - destruct (lstrip_fuel_split (map rev whitespace) (String.length (rev s)) (rev s))
      as (pre & Hpre & Hs).
    exists (rev pre). split; [now apply spaces_rev|].
    rewrite <- rev_app, <- Hs. symmetry. apply rev_involutive.
  - rewrite rev_involutive.
    apply lstrip_fuel_done; [apply rev_whitespace_nonempty | apply le_n].
Qed.

(** [strip] cuts whitespace, and only whitespace, off both ends: the
    argument is the result between two runs of whitespace, and the result
    neither starts nor ends with a whitespace character. *)
Theorem strip_spec (s : str) :
  (exists pre post,
      spaces whitespace pre /\ spaces whitespace post
      /\ s = pre ++ strip s ++ post)
  /\ drop_one whitespace (strip s) = None
  /\ drop_one (map rev whitespace) (rev (strip s)) = None.
Proof.
  unfold strip.
  destruct (lstrip_spec s) as ((pre & Hpre & Hs) & Hfront).
  destruct (rstrip_spec (lstrip s)) as ((post & Hpost & Ht) & Hback).
  split; [|split].
  - exists pre, post. split; [exact Hpre|]. split; [exact Hpost|].
    now rewrite <- Ht.
  - apply drop_one_None. intros w r Hin Hr.
    rewrite drop_one_None in Hfront. apply (Hfront w (r ++ post) Hin).
    rewrite Ht at 1. rewrite Hr. apply append_assoc.
  - exact Hback.
Qed.

Lemma strip_contained (s : str) : contains (strip s) s.
Proof.
  destruct (strip_spec s) as ((pre & post & _ & _ & Hs) & _).
  exists pre, post. exact Hs.
Qed.

(** [strip] on a few strings: ASCII blanks and line feeds, inner blanks,
    a no-break space and an ideographic space, accented letters. *)
Example strip_ascii : strip ("  hola " ++ nl) = "hola".
Proof. reflexivity. Qed.

Example strip_inner_kept : strip " a  b " = "a  b".
Proof. reflexivity. Qed.

Example strip_unicode_blanks :
  strip (of_bytes [0xC2; 0xA0; 0x61; 0xE3; 0x80; 0x80]%N) = "a".
Proof. reflexivity. Qed.

Example strip_all_blank : strip ("   " ++ nl) = "".
Proof. reflexivity. Qed.

Example strip_accents_kept : strip " ¿Qué? " = "¿Qué?".
Proof. reflexivity. Qed.

(* ================================================================== *)
(** ** Running computations *)
(* ================================================================== *)

Section Run.

Context {E A B : Type}.
Variables (w : World) (tr tr' : list Call).

Lemma bind_Return (c : M E A) (k : A -> M E B) (a : A) :
  c w tr = (Return a, tr') -> (x <- c ;; k x) w tr = k a w tr'.
Proof. intros H. cbn. unfold M_bind. rewrite H. reflexivity. Qed.

Lemma bind_Raise (c : M E A) (k : A -> M E B) (e : E) :
  c w tr = (Raise e, tr') -> (x <- c ;; k x) w tr = (Raise e, tr').
Proof. intros H. cbn. unfold M_bind. rewrite H. reflexivity. Qed.

Lemma try_Return {E'} (c : M E A) (h : E -> M E' A) (a : A) :
  c w tr = (Return a, tr') -> try_except c h w tr = (Return a, tr').
Proof. intros H. unfold try_except. rewrite H. reflexivity. Qed.

Lemma try_Raise {E'} (c : M E A) (h : E -> M E' A) (e : E) :
  c w tr = (Raise e, tr') -> try_except c h w tr = h e w tr'.
Proof. intros H. unfold try_except. rewrite H. reflexivity. Qed.

End Run.

(* ================================================================== *)
(** ** The two steps of [process_audio] *)
(* ================================================================== *)

Lemma truthy_nonempty (s : str) : truthy s = true <-> s <> "".
Proof. destruct s; cbn; split; congruence. Qed.

Lemma truthy_empty (s : str) : truthy s = false <-> s = "".
Proof. destruct s; cbn; split; congruence. Qed.

(** The transcription block reads the upload and, unless that fails, makes
    exactly one transcription call and hands back its text or its error. *)
Lemma transcription_block_run (u : UploadFile) (w : World) (tr : list Call) :
  transcription_block u w tr =
  match read_failure w with
  | Some e => (Raise e, tr)
  | None =>
      (match audio_transcriptions_create w (transcription_args u (file u)) with
       | Return r => Return (text r)
       | Raise e => Raise e
       end,
       (tr ++ [CallTranscription (transcription_args u (file u))])%list)
  end.
Proof.
  unfold transcription_block, read, transcriptions_create. cbn. unfold M_bind.
  destruct (read_failure w); [reflexivity|].
  destruct (audio_transcriptions_create w _); reflexivity.
Qed.

(** The advice block makes exactly one chat call, whatever comes back. *)
Lemma advice_block_run (T : str) (w : World) (tr : list Call) :
  advice_block T w tr =
  (match chat_completions_create w (chat_args T) with
   | Return r =>
       match choices r with
       | c :: _ => strip_method (content (message c))
       | [] => Raise (OtherException "list index out of range")
       end
   | Raise e => Raise e
   end,
   (tr ++ [CallChat (chat_args T)])%list).
Proof.
  unfold advice_block, completions_create, lift. cbn. unfold M_bind.
  destruct (chat_completions_create w _) as [r|e]; [|reflexivity].
  destruct (choices r); reflexivity.
Qed.

(** The advice block raises when the chat call raises, when the answer
    has no choice, and when the first choice has no content. *)
Lemma advice_block_Raise_iff (T : str) (w : World) (tr tr' : list Call)
    (e : exn) :
  advice_block T w tr = (Raise e, tr') <->
  tr' = (tr ++ [CallChat (chat_args T)])%list /\
  (chat_completions_create w (chat_args T) = Raise e
   \/ exists r,
        chat_completions_create w (chat_args T) = Return r
        /\ ((choices r = [] /\ e = OtherException "list index out of range")
            \/ (exists c rest,
                   choices r = c :: rest /\ content (message c) = None
                   /\ e = OtherException
                           "'NoneType' object has no attribute 'strip'"))).
Proof.
  rewrite advice_block_run. split.
  - intros H. injection H as H <-. split; [reflexivity|].
    destruct (chat_completions_create w (chat_args T)) as [r|e']; [|left; congruence].
    right. exists r. split; [reflexivity|].
    destruct (choices r) as [|c rest]; [left; split; congruence|].
    right. exists c, rest. destruct (content (message c)); [discriminate|].
    cbn in H. split; [reflexivity|]. split; congruence.
  - intros (-> & [-> | (r & -> & [(-> & ->) | (c & rest & -> & -> & ->)])]);
      reflexivity.
Qed.

Lemma advice_block_trace (T : str) (w : World) (tr : list Call) :
  snd (advice_block T w tr) = (tr ++ [CallChat (chat_args T)])%list.
Proof. rewrite advice_block_run. reflexivity. Qed.

(** No call is made by either handler of the advice step. *)
Lemma advice_handler_run {E} (e : exn) (w : World) (tr : list Call) :
  @advice_handler E e w tr =
  (Return match e with
          | OpenAIError _ => "Error generating advice from LLM."
          | OtherException _ => "Error generating advice."
          end, tr).
Proof. destruct e; reflexivity. Qed.

Lemma advice_step_empty {E} (w : World) (tr : list Call) :
  @advice_step E "" w tr =
  (Return "Transcription failed, cannot generate advice.", tr).
Proof. reflexivity. Qed.

Lemma advice_step_nonempty {E} (T : str) (w : World) (tr : list Call) :
  T <> "" ->
  @advice_step E T w tr =
  try_except (advice_block T) advice_handler w tr.
Proof.
  intros HT. unfold advice_step.
  apply truthy_nonempty in HT. rewrite HT. reflexivity.
Qed.

(** The advice step always returns: it has no way to raise. *)
Lemma advice_step_returns {E} (T : str) (w : World) (tr : list Call) :
  exists a tr', @advice_step E T w tr = (Return a, tr').
Proof.
  unfold advice_step. destruct (truthy T).
  - unfold try_except. destruct (advice_block T w tr) as [[a|e] tr'].
    + eauto.
    + rewrite advice_handler_run. eauto.
  - cbn. unfold M_ret. eauto.
Qed.

(** The chat calls of the advice step: one for a non-empty text, none
    otherwise. *)
Lemma advice_step_trace {E} (T : str) (w : World) (tr : list Call) :
  snd (@advice_step E T w tr) =
  if truthy T then (tr ++ [CallChat (chat_args T)])%list else tr.
Proof.
  unfold advice_step. destruct (truthy T); [|reflexivity].
  unfold try_except. pose proof (advice_block_trace T w tr) as Htr.
  destruct (advice_block T w tr) as [[a|e] tr']; cbn in Htr; subst tr'.
  - reflexivity.
  - rewrite advice_handler_run. reflexivity.
Qed.

(** How the request ends when the transcription block returns... *)
Lemma process_audio_Return (u : UploadFile) (w : World) (tr tr1 tr2 : list Call)
    (T a : str) :
  transcription_block u w tr = (Return T, tr1) ->
  @advice_step HTTPException T w tr1 = (Return a, tr2) ->
  process_audio u w tr = (Return {| transcription := T; advice := a |}, tr2).
Proof.
  intros HT Ha. unfold process_audio.
  rewrite (bind_Return w tr tr1 _ _ T) by (apply try_Return; exact HT).
  rewrite (bind_Return w tr1 tr2 _ _ a) by exact Ha.
  reflexivity.
Qed.

(** ... and when it raises. *)
Lemma process_audio_Raise (u : UploadFile) (w : World) (tr tr1 : list Call)
    (e : exn) :
  transcription_block u w tr = (Raise e, tr1) ->
  process_audio u w tr =
  (Raise {| status_code := 500;
            detail := match e with
                      | OpenAIError _ => "Whisper API error: "
                      | OtherException _ => "Failed to transcribe audio: "
                      end ++ exn_str e |}, tr1).
Proof.
  intros He. unfold process_audio.
  apply bind_Raise. rewrite (try_Raise w tr tr1 _ _ e He).
  destruct e; reflexivity.
Qed.

(** What it takes for the transcription block to return or to raise. *)
Lemma transcription_block_Return_iff (u : UploadFile) (w : World)
    (tr tr1 : list Call) (T : str) :
  transcription_block u w tr = (Return T, tr1) <->
  read_failure w = None /\
  (exists r, audio_transcriptions_create w (transcription_args u (file u)) = Return r
             /\ text r = T) /\
  tr1 = (tr ++ [CallTranscription (transcription_args u (file u))])%list.
Proof.
  rewrite transcription_block_run. split.
  - destruct (read_failure w); [discriminate|].
    destruct (audio_transcriptions_create w _) as [r|e]; [|discriminate].
    intros H. injection H as <- <-. eauto.
  - intros (-> & (r & -> & <-) & ->). reflexivity.
Qed.

Lemma transcription_block_Raise_iff (u : UploadFile) (w : World)
    (tr tr1 : list Call) (e : exn) :
  transcription_block u w tr = (Raise e, tr1) <->
  (read_failure w = Some e /\ tr1 = tr) \/
  (read_failure w = None /\
   audio_transcriptions_create w (transcription_args u (file u)) = Raise e /\
   tr1 = (tr ++ [CallTranscription (transcription_args u (file u))])%list).
Proof.
  rewrite transcription_block_run. split.
  - destruct (read_failure w) as [e'|].
    + intros H. injection H as <- <-. left. auto.
    + destruct (audio_transcriptions_create w _) as [r|e']; [discriminate|].
      intros H. injection H as <- <-. right. auto.
  - intros [(-> & ->) | (-> & -> & ->)]; reflexivity.
Qed.

(** The transcription block never makes a chat call. *)
Lemma transcription_block_no_chat (u : UploadFile) (w : World) :
  chat_calls (snd (transcription_block u w [])) = [].
Proof.
  rewrite transcription_block_run.
  destruct (read_failure w); reflexivity.
Qed.

Lemma chat_calls_app (tr1 tr2 : list Call) :
  chat_calls (tr1 ++ tr2) = (chat_calls tr1 ++ chat_calls tr2)%list.
Proof. unfold chat_calls. apply flat_map_app. Qed.

Lemma contains_user_message (T : str) : contains T (user_message T).
Proof.
  exists ("Conversación transcrita:" ++ nl ++ nl),
         (nl ++ nl ++ "¿Qué consejo sutil podrías ofrecer en este momento?").
  unfold user_message. now rewrite !append_assoc.
Qed.

(* ================================================================== *)
(** ** Error handling of [process_audio] *)
(* ================================================================== *)

(** C1.  Whenever the transcription step raises, be it an [OpenAIError]
    of the transcription service or any other exception of that step, the
    handler raises an [HTTPException] with status 500 whose detail is a
    fixed prefix followed by [str(e)], the client receives status 500 with
    that detail, and the trace of the request holds no chat call. *)
Theorem transcription_failure_is_fatal
    (w : World) (u : UploadFile) (e : exn) (tr : list Call) :
  transcription_block u w [] = (Raise e, tr) ->
  exists d,
    process_audio u w [] = (Raise {| status_code := 500; detail := d |}, tr)
    /\ d = match e with
           | OpenAIError _ => "Whisper API error: "
           | OtherException _ => "Failed to transcribe audio: "
           end ++ exn_str e
    /\ contains (exn_str e) d
    /\ post_process_audio w u = ({| status := 500; body := [("detail", d)] |}, tr)
    /\ chat_calls tr = [].
Proof.
  intros He.
  pose proof (process_audio_Raise u w [] tr e He) as Hrun.
  eexists. split; [exact Hrun|]. split; [reflexivity|].
  split; [apply contains_suffix|]. split.
  - unfold post_process_audio. rewrite Hrun. reflexivity.
  - pose proof (transcription_block_no_chat u w) as Hno.
    rewrite He in Hno. exact Hno.
Qed.

Lemma transcription_failure_is_fatal_witness :
  exists d,
    process_audio wav_upload world_whisper_down [] =
      (Raise {| status_code := 500; detail := d |},
       [CallTranscription (transcription_args wav_upload riff)])
    /\ d = "Whisper API error: " ++ "Connection error."
    /\ contains "Connection error." d
    /\ post_process_audio world_whisper_down wav_upload =
         ({| status := 500; body := [("detail", d)] |},
          [CallTranscription (transcription_args wav_upload riff)])
    /\ chat_calls [CallTranscription (transcription_args wav_upload riff)] = [].
Proof.
  apply (transcription_failure_is_fatal world_whisper_down wav_upload
           (OpenAIError "Connection error.")).
  reflexivity.
Defined.

(** C2.  When the transcription step returns a non-empty text and the
    advice step then raises, the handler still returns, with that text as
    transcription and with advice "Error generating advice from LLM." for
    an [OpenAIError] and "Error generating advice." for any other
    exception; the client receives status 200.  Since this covers every
    exception of the advice step, none of them leaves the handler. *)
Theorem advice_failure_degrades
    (w : World) (u : UploadFile) (T : str) (e : exn) (tr1 tr2 : list Call) :
  transcription_block u w [] = (Return T, tr1) ->
  T <> "" ->
  advice_block T w tr1 = (Raise e, tr2) ->
  let r := {| transcription := T;
              advice := match e with
                        | OpenAIError _ => "Error generating advice from LLM."
                        | OtherException _ => "Error generating advice."
                        end |} in
  process_audio u w [] = (Return r, tr2)
  /\ post_process_audio w u = ({| status := 200; body := json_of_record r |}, tr2).
Proof.
  intros HT Hne He r.
  assert (Hrun : process_audio u w [] = (Return r, tr2)).
  { apply (process_audio_Return u w [] tr1 tr2); [exact HT|].
    rewrite (advice_step_nonempty T w tr1 Hne).
    rewrite (try_Raise w tr1 tr2 _ _ e He).
    apply advice_handler_run. }
  split; [exact Hrun|].
  unfold post_process_audio. rewrite Hrun. reflexivity.
Qed.

Lemma advice_failure_degrades_witness :
  let tr1 := [CallTranscription (transcription_args wav_upload riff)] in
  (let tr2 := (tr1 ++ [CallChat (chat_args " hola, necesito ayuda ")])%list in
   let r := {| transcription := " hola, necesito ayuda ";
               advice := "Error generating advice from LLM." |} in
   process_audio wav_upload world_llm_down [] = (Return r, tr2)
   /\ post_process_audio world_llm_down wav_upload =
        ({| status := 200; body := json_of_record r |}, tr2))
  /\
  (let tr2 := (tr1 ++ [CallChat (chat_args "hola, necesito ayuda")])%list in
   let r := {| transcription := "hola, necesito ayuda";
               advice := "Error generating advice." |} in
   process_audio wav_upload world_llm_broken [] = (Return r, tr2)
   /\ post_process_audio world_llm_broken wav_upload =
        ({| status := 200; body := json_of_record r |}, tr2)).
Proof.
  intros tr1. split.
  - apply (advice_failure_degrades world_llm_down wav_upload
             " hola, necesito ayuda " (OpenAIError "Rate limit reached.") tr1).
    + reflexivity.
    + discriminate.
    + reflexivity.
  - apply (advice_failure_degrades world_llm_broken wav_upload
             "hola, necesito ayuda"
             (OtherException "unexpected keyword argument") tr1).
    + reflexivity.
    + discriminate.
    + reflexivity.
Defined.

(** C3.  When the transcription step returns the empty text, the handler
    returns with advice "Transcription failed, cannot generate advice." and
    the trace of the request holds no chat call.  Conversely, every chat
    call found in the trace of a request was made with the arguments built
    from a non-empty text that the transcription step returned. *)
Theorem empty_transcription_skips_advice :
  (forall (w : World) (u : UploadFile) (tr1 : list Call),
      transcription_block u w [] = (Return "", tr1) ->
      process_audio u w [] =
        (Return {| transcription := "";
                   advice := "Transcription failed, cannot generate advice." |},
         tr1)
      /\ chat_calls tr1 = [])
  /\
  (forall (w : World) (u : UploadFile) (a : ChatArgs),
      In a (chat_calls (snd (process_audio u w []))) ->
      exists T tr1,
        transcription_block u w [] = (Return T, tr1)
        /\ T <> "" /\ a = chat_args T).
Proof.
  split.
  - intros w u tr1 HT. split.
    + apply (process_audio_Return u w [] tr1 tr1); [exact HT|].
      apply advice_step_empty.
    + pose proof (transcription_block_no_chat u w) as Hno.
      rewrite HT in Hno. exact Hno.
  - intros w u a Hin.
    pose proof (transcription_block_no_chat u w) as Hno.
    destruct (transcription_block u w []) as [[T|e] tr1] eqn:HT.
    + exists T, tr1. split; [reflexivity|].
      destruct (@advice_step_returns HTTPException T w tr1) as (adv & tr2 & Ha).
      pose proof (advice_step_trace (E:=HTTPException) T w tr1) as Htr.
      rewrite Ha in Htr. simpl snd in Htr, Hno.
      rewrite (process_audio_Return u w [] tr1 tr2 T adv HT Ha) in Hin.
      simpl snd in Hin. subst tr2.
      destruct (truthy T) eqn:Hb.
      * rewrite chat_calls_app, Hno in Hin.
        destruct Hin as [<-|[]]. split; [now apply truthy_nonempty | reflexivity].
      * rewrite Hno in Hin. destruct Hin.
    + rewrite (process_audio_Raise u w [] tr1 e HT) in Hin.
      simpl snd in Hin, Hno. rewrite Hno in Hin. destruct Hin.
Qed.

Lemma empty_transcription_skips_advice_witness :
  (process_audio wav_upload world_silence [] =
     (Return {| transcription := "";
                advice := "Transcription failed, cannot generate advice." |},
      [CallTranscription (transcription_args wav_upload riff)])
   /\ chat_calls [CallTranscription (transcription_args wav_upload riff)] = [])
  /\
  (exists T tr1,
      transcription_block wav_upload world_ok [] = (Return T, tr1)
      /\ T <> "" /\ chat_args "hola, necesito ayuda" = chat_args T).
Proof.
  split.
  - apply (proj1 empty_transcription_skips_advice world_silence wav_upload).
    reflexivity.
  - apply (proj2 empty_transcription_skips_advice world_ok wav_upload).
    left. reflexivity.
Defined.

(* ================================================================== *)
(** ** File name resolution *)
(* ================================================================== *)

(** The chain of comparisons of lines 75-87 computes the lookup of the
    specification's table. *)
Lemma guess_is_spec_lookup (ct : option str) :
  guess_from_content_type ct = spec_lookup ct.
Proof.
  destruct ct as [c|]; [|reflexivity].
  unfold guess_from_content_type, spec_lookup, eq_lit. cbn [assoc spec_table].
  repeat (destruct (String.eqb c _); cbn [orb]; [reflexivity|]).
  reflexivity.
Qed.

(** The rows of the table, read off the code. *)
Lemma guess_rows :
  guess_from_content_type (Some "audio/mpeg") = "audio.mp3"
  /\ guess_from_content_type (Some "audio/wav") = "audio.wav"
  /\ guess_from_content_type (Some "audio/ogg") = "audio.ogg"
  /\ guess_from_content_type (Some "audio/mp4") = "audio.mp4"
  /\ guess_from_content_type (Some "video/mp4") = "audio.mp4"
  /\ guess_from_content_type (Some "audio/m4a") = "audio.m4a"
  /\ guess_from_content_type None = "audio.webm".
Proof. repeat split. Qed.

(** Any content type outside the table gets the default. *)
Lemma guess_default (c : str) :
  ~ In c (map fst spec_table) ->
  guess_from_content_type (Some c) = "audio.webm".
Proof.
  intros Hout. rewrite guess_is_spec_lookup. unfold spec_lookup.
  cbn [assoc spec_table].
  repeat match goal with
         | |- context [String.eqb c ?k] =>
             destruct (String.eqb_spec c k) as [->|_];
             [exfalso; apply Hout; cbn; tauto|]
         end.
  reflexivity.
Qed.

(** The source's test [not audio_file.filename], spelled with
    [truthy_opt]. *)
Lemma filename_for_api_unfold (u : UploadFile) :
  filename_for_api u =
  if negb (truthy_opt (filename u)) then
    guess_from_content_type (content_type u)
  else
    match filename u with Some name => name | None => "" end.
Proof. unfold filename_for_api. destruct (filename u); reflexivity. Qed.

(** C4, as the code has it.  For an upload whose file name is absent or
    empty, the name sent is the table's entry for the declared content
    type ("audio.webm" for any other or absent type); for an upload with a
    non-empty file name, that name is sent as it is. *)
Theorem filename_resolution (u : UploadFile) :
  (filename u = None \/ filename u = Some "" ->
   filename_for_api u = spec_lookup (content_type u))
  /\
  (forall name, filename u = Some name -> name <> "" ->
                filename_for_api u = name).
Proof.
  unfold filename_for_api. split.
  - intros [-> | ->]; cbn; apply guess_is_spec_lookup.
  - intros name -> Hne. apply truthy_nonempty in Hne. now rewrite Hne.
Qed.

Lemma filename_resolution_witness :
  filename_for_api wav_upload = "audio.wav"
  /\ filename_for_api empty_name_upload = "audio.wav"
  /\ filename_for_api named_upload = "nota.m4a".
Proof.
  split; [|split].
  - apply (proj1 (filename_resolution wav_upload)). left. reflexivity.
  - apply (proj1 (filename_resolution empty_name_upload)). right. reflexivity.
  - apply (proj2 (filename_resolution named_upload) "nota.m4a").
    + reflexivity.
    + discriminate.
Defined.

(** C4, as it is worded, fails: an upload can carry a file name that is
    the empty string, and then the name sent is taken from the table, not
    from the upload. *)
Lemma empty_filename_not_kept :
  filename empty_name_upload = Some ""
  /\ filename_for_api empty_name_upload = "audio.wav"
  /\ ~ (forall (u : UploadFile) (name : str),
           filename u = Some name -> filename_for_api u = name).
Proof.
  split; [reflexivity|]. split; [reflexivity|].
  intros H. specialize (H empty_name_upload "" eq_refl). discriminate H.
Qed.

(** The calls made on behalf of one request. *)
Lemma process_audio_trace (u : UploadFile) (w : World) :
  snd (process_audio u w []) =
  match transcription_block u w [] with
  | (Return T, tr1) =>
      if truthy T then (tr1 ++ [CallChat (chat_args T)])%list else tr1
  | (Raise _, tr1) => tr1
  end.
Proof.
  destruct (transcription_block u w []) as [[T|e] tr1] eqn:HT.
  - destruct (@advice_step_returns HTTPException T w tr1) as (adv & tr2 & Ha).
    rewrite (process_audio_Return u w [] tr1 tr2 T adv HT Ha).
    rewrite <- (advice_step_trace (E:=HTTPException) T w tr1), Ha. reflexivity.
  - rewrite (process_audio_Raise u w [] tr1 e HT). reflexivity.
Qed.

Lemma transcription_calls_app (tr1 tr2 : list Call) :
  transcription_calls (tr1 ++ tr2)
  = (transcription_calls tr1 ++ transcription_calls tr2)%list.
Proof. unfold transcription_calls. apply flat_map_app. Qed.

(** One request sends at most one file name, the resolved one, and sends
    it as soon as the upload has been read. *)
Lemma process_audio_sent_filenames (u : UploadFile) (w : World) :
  sent_filenames (snd (process_audio u w [])) =
  match read_failure w with
  | Some _ => []
  | None => [filename_for_api u]
  end.
Proof.
  rewrite process_audio_trace, transcription_block_run.
  destruct (read_failure w); [reflexivity|].
  destruct (audio_transcriptions_create w _) as [r|e]; [|reflexivity].
  destruct (truthy (text r)); [|reflexivity].
  unfold sent_filenames. rewrite transcription_calls_app. reflexivity.
Qed.

(** C8.  Two uploads with the same file name and the same declared
    content type resolve to the same name, whatever their bytes: in one
    world the two requests send the same names to the transcription
    service, and in any two worlds a name sent for the one equals a name
    sent for the other. *)
Theorem filename_ignores_bytes (u1 u2 : UploadFile) :
  filename u1 = filename u2 ->
  content_type u1 = content_type u2 ->
  filename_for_api u1 = filename_for_api u2
  /\ (forall w : World,
         sent_filenames (snd (process_audio u1 w []))
         = sent_filenames (snd (process_audio u2 w [])))
  /\ (forall (w1 w2 : World) (f1 f2 : str),
         In f1 (sent_filenames (snd (process_audio u1 w1 []))) ->
         In f2 (sent_filenames (snd (process_audio u2 w2 []))) ->
         f1 = f2).
Proof.
  intros Hname Htype.
  assert (Heq : filename_for_api u1 = filename_for_api u2).
  { unfold filename_for_api. now rewrite Hname, Htype. }
  split; [exact Heq|]. split.
  - intros w. rewrite !process_audio_sent_filenames, Heq. reflexivity.
  - intros w1 w2 f1 f2. rewrite !process_audio_sent_filenames.
    destruct (read_failure w1); [intros []|].
    destruct (read_failure w2); [intros _ []|].
    intros [<-|[]] [<-|[]]. exact Heq.
Qed.

Lemma filename_ignores_bytes_witness :
  file wav_upload <> file wav_upload'
  /\ filename_for_api wav_upload = filename_for_api wav_upload'
  /\ sent_filenames (snd (process_audio wav_upload world_ok []))
     = sent_filenames (snd (process_audio wav_upload' world_ok [])).
Proof.
  split; [discriminate|].
  destruct (filename_ignores_bytes wav_upload wav_upload' eq_refl eq_refl)
    as (Hname & Hsame & _).
  split; [exact Hname | exact (Hsame world_ok)].
Defined.

(* ================================================================== *)
(** ** The advice call and the response *)
(* ================================================================== *)

(** The user message is the only message with role "user". *)
Lemma user_messages_chat_args (T : str) :
  user_messages (chat_args T) = [user_message T].
Proof. reflexivity. Qed.

(** After a non-empty transcription the request makes one chat call. *)
Lemma process_audio_chat_calls (u : UploadFile) (w : World) (T : str)
    (tr1 : list Call) :
  transcription_block u w [] = (Return T, tr1) ->
  T <> "" ->
  chat_calls (snd (process_audio u w [])) = [chat_args T].
Proof.
  intros HT Hne. pose proof (transcription_block_no_chat u w) as Hno.
  rewrite process_audio_trace. rewrite HT in *. simpl snd in Hno.
  apply truthy_nonempty in Hne. rewrite Hne, chat_calls_app, Hno. reflexivity.
Qed.

(** C5.  When the transcription step returns a non-empty text [T], the
    handler returns a record whose transcription is [T], the trace of the
    request holds exactly one chat call, and the one user message of that
    call is the fixed template with [T] in the middle, so it contains [T]
    as it is. *)
Theorem advice_called_once_with_text
    (w : World) (u : UploadFile) (T : str) (tr1 : list Call) :
  transcription_block u w [] = (Return T, tr1) ->
  T <> "" ->
  exists (adv : str) (call : ChatArgs) (tr2 : list Call),
    process_audio u w [] = (Return {| transcription := T; advice := adv |}, tr2)
    /\ chat_calls tr2 = [call]
    /\ user_messages call =
         ["Conversación transcrita:" ++ nl ++ nl ++ T ++ nl ++ nl
          ++ "¿Qué consejo sutil podrías ofrecer en este momento?"]
    /\ (forall m, In m (user_messages call) -> contains T m).
Proof.
  intros HT Hne.
  destruct (@advice_step_returns HTTPException T w tr1) as (adv & tr2 & Ha).
  pose proof (process_audio_Return u w [] tr1 tr2 T adv HT Ha) as Hrun.
  pose proof (process_audio_chat_calls u w T tr1 HT Hne) as Hcalls.
  rewrite Hrun in Hcalls. simpl snd in Hcalls.
  exists adv, (chat_args T), tr2. repeat split; try assumption.
  intros m [<-|[]]. apply contains_user_message.
Qed.

Lemma advice_called_once_with_text_witness :
  exists (adv : str) (call : ChatArgs) (tr2 : list Call),
    process_audio wav_upload world_ok [] =
      (Return {| transcription := "hola, necesito ayuda"; advice := adv |}, tr2)
    /\ chat_calls tr2 = [call]
    /\ user_messages call =
         ["Conversación transcrita:" ++ nl ++ nl ++ "hola, necesito ayuda"
          ++ nl ++ nl ++ "¿Qué consejo sutil podrías ofrecer en este momento?"]
    /\ (forall m, In m (user_messages call) -> contains "hola, necesito ayuda" m).
Proof.
  apply (advice_called_once_with_text world_ok wav_upload "hola, necesito ayuda"
           [CallTranscription (transcription_args wav_upload riff)]).
  - reflexivity.
  - discriminate.
Defined.

(** C6.  When the chat call is made and answers with a first choice that
    has a content, the advice of the record is that content with leading
    and trailing whitespace removed: it is what [strip] computes, it
    neither starts nor ends with a whitespace character, and the content
    is the advice between two runs of whitespace, so that nothing but
    whitespace at the two ends is removed.  The call carries
    [max_tokens = 100] and [temperature = 0.7], a value strictly between 0
    and 1. *)
Theorem advice_is_trimmed_first_choice
    (w : World) (u : UploadFile) (T : str) (tr1 : list Call)
    (resp : ChatCompletion) (c : Choice) (rest : list Choice) (s : str) :
  transcription_block u w [] = (Return T, tr1) ->
  T <> "" ->
  chat_completions_create w (chat_args T) = Return resp ->
  choices resp = c :: rest ->
  content (message c) = Some s ->
  exists (call : ChatArgs) (adv : str) (tr2 : list Call),
    process_audio u w [] =
      (Return {| transcription := T; advice := adv |}, tr2)
    /\ adv = strip s
    /\ drop_one whitespace adv = None
    /\ drop_one (map rev whitespace) (rev adv) = None
    /\ (exists pre post,
          spaces whitespace pre /\ spaces whitespace post
          /\ s = pre ++ adv ++ post)
    /\ chat_calls tr2 = [call]
    /\ max_tokens call = 100%Z
    /\ temperature call = 0.7%Q
    /\ (0 < temperature call < 1)%Q.
Proof.
  intros HT Hne Hresp Hchoices Hcontent.
  set (tr2 := (tr1 ++ [CallChat (chat_args T)])%list).
  assert (Hrun : process_audio u w [] =
                 (Return {| transcription := T; advice := strip s |}, tr2)).
  { apply (process_audio_Return u w [] tr1 tr2); [exact HT|].
    rewrite (advice_step_nonempty T w tr1 Hne).
    apply try_Return. rewrite advice_block_run, Hresp, Hchoices, Hcontent.
    reflexivity. }
  pose proof (process_audio_chat_calls u w T tr1 HT Hne) as Hcalls.
  rewrite Hrun in Hcalls. simpl snd in Hcalls.
  destruct (strip_spec s) as (Hsplit & Hfront & Hback).
  exists (chat_args T), (strip s), tr2.
  split; [exact Hrun|]. split; [reflexivity|].
  split; [exact Hfront|]. split; [exact Hback|]. split; [exact Hsplit|].
  split; [exact Hcalls|]. repeat split.
Qed.

Lemma advice_is_trimmed_first_choice_witness :
  exists (call : ChatArgs) (adv : str) (tr2 : list Call),
    process_audio wav_upload world_ok [] =
      (Return {| transcription := "hola, necesito ayuda"; advice := adv |}, tr2)
    /\ adv = strip (" Tal vez podrías pedir ayuda directamente." ++ nl)
    /\ drop_one whitespace adv = None
    /\ drop_one (map rev whitespace) (rev adv) = None
    /\ (exists pre post,
          spaces whitespace pre /\ spaces whitespace post
          /\ " Tal vez podrías pedir ayuda directamente." ++ nl
             = pre ++ adv ++ post)
    /\ chat_calls tr2 = [call]
    /\ max_tokens call = 100%Z
    /\ temperature call = 0.7%Q
    /\ (0 < temperature call < 1)%Q.
Proof.
  apply (advice_is_trimmed_first_choice world_ok wav_upload
           "hola, necesito ayuda"
           [CallTranscription (transcription_args wav_upload riff)]
           (one_choice (Some (" Tal vez podrías pedir ayuda directamente." ++ nl)))
           {| message := {| content :=
                Some (" Tal vez podrías pedir ayuda directamente." ++ nl) |} |}
           []).
  - reflexivity.
  - discriminate.
  - reflexivity.
  - reflexivity.
  - reflexivity.
Defined.

(** C9.  When the chat call answers with no choice at all, or with a
    first choice whose content is [None], the handler returns with advice
    "Error generating advice." and the client receives status 200.  And
    the advice step returns in every world, for every text. *)
Theorem malformed_completion_degrades :
  (forall (w : World) (u : UploadFile) (T : str) (tr1 : list Call)
          (resp : ChatCompletion),
      transcription_block u w [] = (Return T, tr1) ->
      T <> "" ->
      chat_completions_create w (chat_args T) = Return resp ->
      (choices resp = []
       \/ exists c rest, choices resp = c :: rest /\ content (message c) = None) ->
      exists tr2,
        let r := {| transcription := T; advice := "Error generating advice." |} in
        process_audio u w [] = (Return r, tr2)
        /\ post_process_audio w u =
             ({| status := 200; body := json_of_record r |}, tr2))
  /\
  (forall (E : Type) (T : str) (w : World) (tr : list Call),
      exists adv tr', @advice_step E T w tr = (Return adv, tr')).
Proof.
  split.
  - intros w u T tr1 resp HT Hne Hresp Hbad.
    set (tr2 := (tr1 ++ [CallChat (chat_args T)])%list).
    exists tr2. intros r.
    assert (Hrun : process_audio u w [] = (Return r, tr2)).
    { apply (process_audio_Return u w [] tr1 tr2); [exact HT|].
      rewrite (advice_step_nonempty T w tr1 Hne).
      unfold try_except. rewrite advice_block_run, Hresp.
      destruct Hbad as [-> | (c & rest & -> & ->)]; reflexivity. }
    split; [exact Hrun|].
    unfold post_process_audio. rewrite Hrun. reflexivity.
  - intros E T w tr. apply advice_step_returns.
Qed.

Lemma malformed_completion_degrades_witness :
  (exists tr2,
      let r := {| transcription := "hola, necesito ayuda";
                  advice := "Error generating advice." |} in
      process_audio wav_upload world_no_choice [] = (Return r, tr2)
      /\ post_process_audio world_no_choice wav_upload =
           ({| status := 200; body := json_of_record r |}, tr2))
  /\
  (exists tr2,
      let r := {| transcription := "hola, necesito ayuda";
                  advice := "Error generating advice." |} in
      process_audio named_upload world_null_content [] = (Return r, tr2)
      /\ post_process_audio world_null_content named_upload =
           ({| status := 200; body := json_of_record r |}, tr2)).
Proof.
  split.
  - apply (proj1 malformed_completion_degrades world_no_choice wav_upload
             "hola, necesito ayuda"
             [CallTranscription (transcription_args wav_upload riff)]
             {| choices := [] |}).
    + reflexivity.
    + discriminate.
    + reflexivity.
    + left. reflexivity.
  - apply (proj1 malformed_completion_degrades world_null_content named_upload
             "hola, necesito ayuda"
             [CallTranscription (transcription_args named_upload riff)]
             (one_choice None)).
    + reflexivity.
    + discriminate.
    + reflexivity.
    + right. exists {| message := {| content := None |} |}, [].
      split; reflexivity.
Defined.

(** C10.  When the upload is read and the transcription service answers,
    the handler returns a record whose transcription is the text of that
    answer, unchanged, whatever the advice step does and also when the
    text is empty. *)
Theorem transcription_is_returned_unchanged
    (w : World) (u : UploadFile) (answer : Transcription) :
  read_failure w = None ->
  audio_transcriptions_create w (transcription_args u (file u)) = Return answer ->
  exists (adv : str) (tr : list Call),
    process_audio u w [] =
      (Return {| transcription := text answer; advice := adv |}, tr)
    /\ post_process_audio w u =
         ({| status := 200;
             body := [("transcription", text answer); ("advice", adv)] |}, tr).
Proof.
  intros Hread Hanswer.
  assert (HT : transcription_block u w [] =
               (Return (text answer),
                [CallTranscription (transcription_args u (file u))])).
  { apply transcription_block_Return_iff. split; [exact Hread|].
    split; [|reflexivity]. exists answer. split; [exact Hanswer | reflexivity]. }
  destruct (@advice_step_returns HTTPException (text answer) w
              [CallTranscription (transcription_args u (file u))])
    as (adv & tr2 & Ha).
  pose proof (process_audio_Return u w [] _ tr2 _ adv HT Ha) as Hrun.
  exists adv, tr2. split; [exact Hrun|].
  unfold post_process_audio. rewrite Hrun. reflexivity.
Qed.

Lemma transcription_is_returned_unchanged_witness :
  (exists (adv : str) (tr : list Call),
      process_audio wav_upload world_llm_down [] =
        (Return {| transcription := " hola, necesito ayuda "; advice := adv |}, tr)
      /\ post_process_audio world_llm_down wav_upload =
           ({| status := 200;
               body := [("transcription", " hola, necesito ayuda ");
                        ("advice", adv)] |}, tr))
  /\
  (exists (adv : str) (tr : list Call),
      process_audio wav_upload world_silence [] =
        (Return {| transcription := ""; advice := adv |}, tr)
      /\ post_process_audio world_silence wav_upload =
           ({| status := 200;
               body := [("transcription", ""); ("advice", adv)] |}, tr)).
Proof.
  split.
  - apply (transcription_is_returned_unchanged world_llm_down wav_upload
             {| text := " hola, necesito ayuda " |}); reflexivity.
  - apply (transcription_is_returned_unchanged world_silence wav_upload
             {| text := "" |}); reflexivity.
Defined.

(* ================================================================== *)
(** ** The health check *)
(* ================================================================== *)

(** C7.  [root] returns the same message in every world and after any
    calls made before, raises nothing and leaves the trace as it found it;
    the client receives status 200 with that message and no call is made. *)
Theorem root_is_constant :
  (forall (E : Type) (w : World) (tr : list Call),
      @root E w tr =
      (Return {| message_text := "Wearable AI Backend is running" |}, tr))
  /\
  (forall w : World,
      get_root w =
      ({| status := 200;
          body := [("message", "Wearable AI Backend is running")] |}, [])).
Proof. split; reflexivity. Qed.

(* ================================================================== *)
(** ** The scenario of the specification *)
(* ================================================================== *)

(** A recording declared as audio/wav and sent without a file name is
    transcribed under the name "audio.wav"; the advice comes back trimmed;
    the trace holds the transcription call followed by the chat call. *)
Example wav_scenario :
  post_process_audio world_ok wav_upload =
  ({| status := 200;
      body := [("transcription", "hola, necesito ayuda");
               ("advice", "Tal vez podrías pedir ayuda directamente.")] |},
   [CallTranscription
      {| transcription_model := "whisper-1";
         file_tuple := ("audio.wav", riff, Some "audio/wav") |};
    CallChat (chat_args "hola, necesito ayuda")]).
Proof. reflexivity. Qed.

(** A failed read is reported like any other failure of the step, and no
    service is called. *)
Example read_failure_scenario :
  post_process_audio world_read_fails named_upload =
  ({| status := 500;
      body := [("detail",
                "Failed to transcribe audio: I/O operation on closed file.")] |},
   []).
Proof. reflexivity. Qed.

(* ================================================================== *)
(** ** Further properties of [process_audio] *)
(* ================================================================== *)

(** The transcription calls of one request. *)
Lemma process_audio_transcription_calls (u : UploadFile) (w : World) :
  transcription_calls (snd (process_audio u w [])) =
  match read_failure w with
  | Some _ => []
  | None => [transcription_args u (file u)]
  end.
Proof.
  rewrite process_audio_trace, transcription_block_run.
  destruct (read_failure w); [reflexivity|].
  destruct (audio_transcriptions_create w _) as [r|e]; [|reflexivity].
  destruct (truthy (text r)); [|reflexivity].
  rewrite transcription_calls_app. reflexivity.
Qed.

(** X1.  The calls of one request, in order: none when reading the upload
    fails; the transcription call alone when that call raises or returns
    the empty text; the transcription call followed by one chat call, built
    from the returned text, otherwise.  So a request never makes more than
    two calls, and never a chat call that a transcription call has not
    preceded. *)
Theorem process_audio_call_sequence (w : World) (u : UploadFile) :
  let tr := snd (process_audio u w []) in
  let args := transcription_args u (file u) in
  (exists e, read_failure w = Some e /\ tr = [])
  \/ (read_failure w = None
      /\ (audio_transcriptions_create w args = Return {| text := "" |}
          \/ exists e, audio_transcriptions_create w args = Raise e)
      /\ tr = [CallTranscription args])
  \/ (read_failure w = None
      /\ exists T, T <> ""
         /\ audio_transcriptions_create w args = Return {| text := T |}
         /\ tr = [CallTranscription args; CallChat (chat_args T)]).
Proof.
  intros tr args. subst tr args.
  rewrite process_audio_trace, transcription_block_run.
  destruct (read_failure w) as [e|]; [left; eauto|]. right.
  destruct (audio_transcriptions_create w _) as [[T]|e]; cbn [text].
  - destruct T as [|a T]; cbn [truthy].
    + left. auto.
    + right. split; [reflexivity|]. exists (String a T).
      split; [discriminate|]. split; reflexivity.
  - left. split; [reflexivity|]. split; [right; eauto | reflexivity].
Qed.

(** X2.  Whatever is sent to the transcription service is sent with the
    model "whisper-1", the bytes of the upload unchanged and the declared
    content type as it came, [None] included. *)
Theorem transcription_payload
    (w : World) (u : UploadFile) (a : TranscriptionArgs) :
  In a (transcription_calls (snd (process_audio u w []))) ->
  transcription_model a = "whisper-1"
  /\ snd (fst (file_tuple a)) = file u
  /\ snd (file_tuple a) = content_type u
  /\ fst (fst (file_tuple a)) = filename_for_api u.
Proof.
  rewrite process_audio_transcription_calls.
  destruct (read_failure w); [intros []|].
  intros [<-|[]]. repeat split.
Qed.

Lemma transcription_payload_witness :
  let a := {| transcription_model := "whisper-1";
              file_tuple := ("audio.wav", riff, Some "audio/wav") |} in
  transcription_model a = "whisper-1"
  /\ snd (fst (file_tuple a)) = file wav_upload
  /\ snd (file_tuple a) = content_type wav_upload
  /\ fst (fst (file_tuple a)) = filename_for_api wav_upload.
Proof.
  intros a. apply (transcription_payload world_llm_down wav_upload a).
  left. reflexivity.
Defined.

Lemma guess_nonempty (ct : option str) : guess_from_content_type ct <> "".
Proof.
  unfold guess_from_content_type.
  repeat match goal with
         | |- context [if ?b then _ else _] => destruct b
         end; discriminate.
Qed.

Lemma filename_for_api_nonempty (u : UploadFile) : filename_for_api u <> "".
Proof.
  unfold filename_for_api. destruct (filename u) as [[|a name]|]; cbn.
  - apply guess_nonempty.
  - discriminate.
  - apply guess_nonempty.
Qed.

(** X3.  The file name sent to the transcription service is never the
    empty string, whatever the upload declares. *)
Theorem sent_filename_nonempty (w : World) (u : UploadFile) (name : str) :
  In name (sent_filenames (snd (process_audio u w []))) ->
  name <> "" /\ name = filename_for_api u.
Proof.
  rewrite process_audio_sent_filenames.
  destruct (read_failure w); [intros []|].
  intros [<-|[]]. split; [apply filename_for_api_nonempty | reflexivity].
Qed.

Lemma sent_filename_nonempty_witness :
  "audio.wav" <> "" /\ "audio.wav" = filename_for_api empty_name_upload.
Proof.
  apply (sent_filename_nonempty world_ok empty_name_upload "audio.wav").
  left. reflexivity.
Defined.

(** X4.  Resolving is idempotent: an upload that carries a name already
    resolved keeps it, whatever content type and bytes come with it. *)
Theorem filename_resolution_idempotent
    (u : UploadFile) (ct : option str) (data : bytes) :
  filename_for_api
    {| filename := Some (filename_for_api u); content_type := ct; file := data |}
  = filename_for_api u.
Proof.
  pose proof (filename_for_api_nonempty u) as Hne.
  apply truthy_nonempty in Hne.
  unfold filename_for_api at 1. cbn [filename]. now rewrite Hne.
Qed.

Lemma append_empty_r (a s : str) : a ++ s = a -> s = "".
Proof. induction a as [|x a IH]; cbn; [auto | intros [= H]; auto]. Qed.

(** X5.  The content type is compared as a whole: a type of the table
    followed by anything at all, such as a parameter, is not recognised,
    and an upload without a usable file name is then sent under the default
    name "audio.webm". *)
Theorem content_type_match_is_exact (u : UploadFile) (key rest : str) :
  filename u = None \/ filename u = Some "" ->
  In key (map fst spec_table) ->
  rest <> "" ->
  content_type u = Some (key ++ rest) ->
  filename_for_api u = "audio.webm".
Proof.
  intros Hname Hkey Hrest Htype.
  assert (Hout : ~ In (key ++ rest) (map fst spec_table)).
  { intros Hin. cbn in Hkey, Hin.
    repeat (destruct Hkey as [<-|Hkey]);
      try contradiction;
      repeat (destruct Hin as [Hin|Hin]);
      try contradiction;
      try (symmetry in Hin; apply (append_empty_r _ rest) in Hin; contradiction);
      cbn in Hin; congruence. }
  unfold filename_for_api. rewrite Htype.
  destruct Hname as [-> | ->]; cbn; now apply guess_default.
Qed.

Lemma content_type_match_is_exact_witness :
  filename_for_api
    {| filename := None;
       content_type := Some ("audio/ogg" ++ "; codecs=opus");
       file := ogg_s |}
  = "audio.webm".
Proof.
  apply (content_type_match_is_exact _ "audio/ogg" "; codecs=opus").
  - left. reflexivity.
  - cbn. tauto.
  - discriminate.
  - reflexivity.
Defined.

(** X6.  Once the handler runs on an upload it ends in one of two ways.
    It raises an [HTTPException], always with status code 500, exactly
    when reading the upload or the transcription call raises; it returns a
    record, whose transcription is the text of the answer, exactly when
    the upload is read and the transcription call answers.  The handler
    raises with no other status code.  What the framework answers before
    the handler runs is not its concern. *)
Theorem process_audio_raises_500_or_returns (w : World) (u : UploadFile) :
  let args := transcription_args u (file u) in
  (exists e d tr,
      (read_failure w = Some e
       \/ (read_failure w = None /\ audio_transcriptions_create w args = Raise e))
      /\ process_audio u w [] = (Raise {| status_code := 500; detail := d |}, tr))
  \/
  (exists answer adv tr,
      read_failure w = None
      /\ audio_transcriptions_create w args = Return answer
      /\ process_audio u w [] =
         (Return {| transcription := text answer; advice := adv |}, tr)).
Proof.
  intros args. subst args.
  destruct (transcription_block u w []) as [[T|e] tr1] eqn:HT.
  - right.
    destruct (@advice_step_returns HTTPException T w tr1) as (adv & tr2 & Ha).
    pose proof (process_audio_Return u w [] tr1 tr2 T adv HT Ha) as Hrun.
    apply transcription_block_Return_iff in HT.
    destruct HT as (Hread & (answer & Hanswer & <-) & _).
    exists answer, adv, tr2. auto.
  - left. pose proof (process_audio_Raise u w [] tr1 e HT) as Hrun.
    apply transcription_block_Raise_iff in HT.
    exists e. eexists. exists tr1. split; [|exact Hrun].
    destruct HT as [(Hread & _) | (Hread & Hcall & _)]; auto.
Qed.

(** A request that returns went through both steps. *)
Lemma process_audio_Return_inv (u : UploadFile) (w : World)
    (r : ResponseRecord) (tr : list Call) :
  process_audio u w [] = (Return r, tr) ->
  exists tr1,
    transcription_block u w [] = (Return (transcription r), tr1)
    /\ @advice_step HTTPException (transcription r) w tr1 = (Return (advice r), tr).
Proof.
  intros Hrun.
  destruct (transcription_block u w []) as [[T|e] tr1] eqn:HT.
  - destruct (@advice_step_returns HTTPException T w tr1) as (adv & tr2 & Ha).
    rewrite (process_audio_Return u w [] tr1 tr2 T adv HT Ha) in Hrun.
    injection Hrun as <- <-. exists tr1. split; [reflexivity | exact Ha].
  - rewrite (process_audio_Raise u w [] tr1 e HT) in Hrun. discriminate.
Qed.

(** The advice for a well-formed answer of the chat service. *)
Lemma process_audio_trimmed (w : World) (u : UploadFile) (T : str)
    (tr1 : list Call) (resp : ChatCompletion) (c : Choice)
    (rest : list Choice) (s : str) :
  transcription_block u w [] = (Return T, tr1) ->
  T <> "" ->
  chat_completions_create w (chat_args T) = Return resp ->
  choices resp = c :: rest ->
  content (message c) = Some s ->
  process_audio u w [] =
  (Return {| transcription := T; advice := strip s |},
   (tr1 ++ [CallChat (chat_args T)])%list).
Proof.
  intros HT Hne Hresp Hchoices Hcontent.
  apply (process_audio_Return u w [] tr1); [exact HT|].
  rewrite (advice_step_nonempty T w tr1 Hne).
  apply try_Return. rewrite advice_block_run, Hresp, Hchoices, Hcontent.
  reflexivity.
Qed.

Lemma lstrip_fuel_fixed (ws : list str) (fuel : nat) (s : str) :
  drop_one ws s = None -> lstrip_fuel ws fuel s = s.
Proof.
  intros Hnone. destruct fuel; cbn [lstrip_fuel]; [reflexivity|].
  now rewrite Hnone.
Qed.

(** [strip] leaves a string alone exactly when it neither starts nor ends
    with whitespace. *)
Lemma strip_fixed_iff (s : str) :
  strip s = s <->
  drop_one whitespace s = None
  /\ drop_one (map rev whitespace) (rev s) = None.
Proof.
  split.
  - intros Hs. destruct (strip_spec s) as (_ & Hfront & Hback).
    rewrite Hs in Hfront, Hback. auto.
  - intros (Hfront & Hback).
    unfold strip, rstrip, lstrip, lstrip_with.
    rewrite (lstrip_fuel_fixed whitespace _ s Hfront).
    rewrite (lstrip_fuel_fixed (map rev whitespace) _ (rev s) Hback).
    apply rev_involutive.
Qed.

(** X7.  When the chat service answers with a first choice that has a
    content, the advice sent back neither starts nor ends with a whitespace
    character, and the content is the advice between two runs of
    whitespace: only the ends are cut, the inside is kept byte for byte. *)
Theorem advice_has_no_outer_whitespace
    (w : World) (u : UploadFile) (T : str) (tr1 : list Call)
    (resp : ChatCompletion) (c : Choice) (rest : list Choice) (s : str) :
  transcription_block u w [] = (Return T, tr1) ->
  T <> "" ->
  chat_completions_create w (chat_args T) = Return resp ->
  choices resp = c :: rest ->
  content (message c) = Some s ->
  exists (adv : str) (tr2 : list Call),
    process_audio u w [] = (Return {| transcription := T; advice := adv |}, tr2)
    /\ drop_one whitespace adv = None
    /\ drop_one (map rev whitespace) (rev adv) = None
    /\ exists pre post,
         spaces whitespace pre /\ spaces whitespace post
         /\ s = pre ++ adv ++ post.
Proof.
  intros HT Hne Hresp Hchoices Hcontent.
  destruct (strip_spec s) as (Hsplit & Hfront & Hback).
  exists (strip s), (tr1 ++ [CallChat (chat_args T)])%list.
  split; [|auto].
  exact (process_audio_trimmed w u T tr1 resp c rest s HT Hne Hresp Hchoices Hcontent).
Qed.

Lemma advice_has_no_outer_whitespace_witness :
  exists (adv : str) (tr2 : list Call),
    process_audio wav_upload world_ok [] =
      (Return {| transcription := "hola, necesito ayuda"; advice := adv |}, tr2)
    /\ drop_one whitespace adv = None
    /\ drop_one (map rev whitespace) (rev adv) = None
    /\ exists pre post,
         spaces whitespace pre /\ spaces whitespace post
         /\ " Tal vez podrías pedir ayuda directamente." ++ nl
            = pre ++ adv ++ post.
Proof.
  apply (advice_has_no_outer_whitespace world_ok wav_upload
           "hola, necesito ayuda"
           [CallTranscription (transcription_args wav_upload riff)]
           (one_choice (Some (" Tal vez podrías pedir ayuda directamente." ++ nl)))
           {| message := {| content :=
                Some (" Tal vez podrías pedir ayuda directamente." ++ nl) |} |}
           []).
  - reflexivity.
  - discriminate.
  - reflexivity.
  - reflexivity.
  - reflexivity.
Defined.

(** X8.  An answer of the chat service that neither starts nor ends with
    whitespace comes back as the advice unchanged. *)
Theorem trimmed_answer_is_returned_verbatim
    (w : World) (u : UploadFile) (T : str) (tr1 : list Call)
    (resp : ChatCompletion) (c : Choice) (rest : list Choice) (s : str) :
  transcription_block u w [] = (Return T, tr1) ->
  T <> "" ->
  chat_completions_create w (chat_args T) = Return resp ->
  choices resp = c :: rest ->
  content (message c) = Some s ->
  drop_one whitespace s = None ->
  drop_one (map rev whitespace) (rev s) = None ->
  process_audio u w [] =
  (Return {| transcription := T; advice := s |},
   (tr1 ++ [CallChat (chat_args T)])%list).
Proof.
  intros HT Hne Hresp Hchoices Hcontent Hfront Hback.
  rewrite (process_audio_trimmed w u T tr1 resp c rest s HT Hne Hresp Hchoices Hcontent).
  rewrite (proj2 (strip_fixed_iff s) (conj Hfront Hback)). reflexivity.
Qed.

Lemma trimmed_answer_is_returned_verbatim_witness :
  process_audio wav_upload world_plain [] =
  (Return {| transcription := "hola"; advice := "Pide ayuda, sin prisa." |},
   [CallTranscription (transcription_args wav_upload riff);
    CallChat (chat_args "hola")]).
Proof.
  apply (trimmed_answer_is_returned_verbatim world_plain wav_upload "hola"
           [CallTranscription (transcription_args wav_upload riff)]
           (one_choice (Some "Pide ayuda, sin prisa."))
           {| message := {| content := Some "Pide ayuda, sin prisa." |} |} []);
    reflexivity || discriminate.
Defined.

(** The value of the advice step, case by case. *)
Lemma advice_step_cases {E} (T adv : str) (w : World) (tr tr' : list Call) :
  @advice_step E T w tr = (Return adv, tr') ->
  (T = "" /\ adv = "Transcription failed, cannot generate advice.")
  \/ (T <> ""
      /\ (exists msg,
             chat_completions_create w (chat_args T) = Raise (OpenAIError msg))
      /\ adv = "Error generating advice from LLM.")
  \/ (T <> ""
      /\ ((exists msg,
              chat_completions_create w (chat_args T) = Raise (OtherException msg))
          \/ (exists resp,
                 chat_completions_create w (chat_args T) = Return resp
                 /\ (choices resp = []
                     \/ exists c rest, choices resp = c :: rest
                                       /\ content (message c) = None)))
      /\ adv = "Error generating advice.")
  \/ (T <> ""
      /\ exists resp c rest s,
           chat_completions_create w (chat_args T) = Return resp
           /\ choices resp = c :: rest
           /\ content (message c) = Some s
           /\ adv = strip s).
Proof.
  unfold advice_step. destruct (truthy T) eqn:Hb.
  - apply truthy_nonempty in Hb. intros H. right.
    unfold try_except in H. rewrite advice_block_run in H.
    destruct (chat_completions_create w (chat_args T)) as [resp|[msg|msg]].
    + destruct (choices resp) as [|c rest] eqn:Hc.
      * cbn in H. injection H as <- _. right. left.
        split; [exact Hb|]. split; [|reflexivity].
        right. exists resp. split; [reflexivity|]. now left.
      * destruct (content (message c)) as [s|] eqn:Hs.
        -- cbn in H. injection H as <- _. right. right.
           split; [exact Hb|]. exists resp, c, rest, s. auto.
        -- cbn in H. injection H as <- _. right. left.
           split; [exact Hb|]. split; [|reflexivity].
           right. exists resp. split; [reflexivity|].
           right. exists c, rest. auto.
    + cbn in H. injection H as <- _. left. eauto.
    + cbn in H. injection H as <- _. right. left.
      split; [exact Hb|]. split; [|reflexivity]. left. eauto.
  - intros H. cbn in H. injection H as <- _. left.
    split; [now apply truthy_empty | reflexivity].
Qed.

(** X9.  The advice of a returned record is one of the three fixed
    placeholders or the trimmed content of the first choice, each in its
    own case; in particular the message of an exception raised by the chat
    service is never part of the response. *)
Theorem advice_is_placeholder_or_trimmed_answer
    (w : World) (u : UploadFile) (r : ResponseRecord) (tr : list Call) :
  process_audio u w [] = (Return r, tr) ->
  let T := transcription r in
  (T = "" /\ advice r = "Transcription failed, cannot generate advice.")
  \/ (T <> ""
      /\ (exists msg,
             chat_completions_create w (chat_args T) = Raise (OpenAIError msg))
      /\ advice r = "Error generating advice from LLM.")
  \/ (T <> ""
      /\ ((exists msg,
              chat_completions_create w (chat_args T) = Raise (OtherException msg))
          \/ (exists resp,
                 chat_completions_create w (chat_args T) = Return resp
                 /\ (choices resp = []
                     \/ exists c rest, choices resp = c :: rest
                                       /\ content (message c) = None)))
      /\ advice r = "Error generating advice.")
  \/ (T <> ""
      /\ exists resp c rest s,
           chat_completions_create w (chat_args T) = Return resp
           /\ choices resp = c :: rest
           /\ content (message c) = Some s
           /\ advice r = strip s).
Proof.
  intros Hrun T. subst T.
  destruct (process_audio_Return_inv u w r tr Hrun) as (tr1 & _ & Ha).
  exact (advice_step_cases _ _ w tr1 tr Ha).
Qed.

Lemma advice_is_placeholder_or_trimmed_answer_witness :
  let r := {| transcription := " hola, necesito ayuda ";
              advice := "Error generating advice from LLM." |} in
  let T := transcription r in
  (T = "" /\ advice r = "Transcription failed, cannot generate advice.")
  \/ (T <> ""
      /\ (exists msg,
             chat_completions_create world_llm_down (chat_args T)
             = Raise (OpenAIError msg))
      /\ advice r = "Error generating advice from LLM.")
  \/ (T <> ""
      /\ ((exists msg,
              chat_completions_create world_llm_down (chat_args T)
              = Raise (OtherException msg))
          \/ (exists resp,
                 chat_completions_create world_llm_down (chat_args T) = Return resp
                 /\ (choices resp = []
                     \/ exists c rest, choices resp = c :: rest
                                       /\ content (message c) = None)))
      /\ advice r = "Error generating advice.")
  \/ (T <> ""
      /\ exists resp c rest s,
           chat_completions_create world_llm_down (chat_args T) = Return resp
           /\ choices resp = c :: rest
           /\ content (message c) = Some s
           /\ advice r = strip s).
Proof.
  intros r.
  apply (advice_is_placeholder_or_trimmed_answer world_llm_down wav_upload r
           [CallTranscription (transcription_args wav_upload riff);
            CallChat (chat_args " hola, necesito ayuda ")]).
  reflexivity.
Defined.

Lemma spaces_of_strip_empty (s : str) : strip s = "" -> spaces whitespace s.
Proof.
  intros Hs. destruct (strip_spec s) as ((pre & post & Hpre & Hpost & Heq) & _).
  rewrite Hs in Heq. cbn in Heq. rewrite Heq. now apply spaces_app.
Qed.

(** X10.  The advice of a returned record is empty only when the chat
    service answered with a first choice made of whitespace alone (or of
    nothing); no placeholder is empty. *)
Theorem empty_advice_means_blank_answer
    (w : World) (u : UploadFile) (r : ResponseRecord) (tr : list Call) :
  process_audio u w [] = (Return r, tr) ->
  advice r = "" ->
  transcription r <> ""
  /\ exists resp c rest s,
       chat_completions_create w (chat_args (transcription r)) = Return resp
       /\ choices resp = c :: rest
       /\ content (message c) = Some s
       /\ spaces whitespace s.
Proof.
  intros Hrun Hempty.
  destruct (process_audio_Return_inv u w r tr Hrun) as (tr1 & _ & Ha).
  destruct (advice_step_cases _ _ w tr1 tr Ha)
    as [(_ & H) | [(_ & _ & H) | [(_ & _ & H) | (Hne & resp & c & rest & s & H1 & H2 & H3 & H)]]];
    try (rewrite Hempty in H; discriminate H).
  split; [exact Hne|]. exists resp, c, rest, s. repeat split; try assumption.
  apply spaces_of_strip_empty. now rewrite <- H.
Qed.

Lemma empty_advice_means_blank_answer_witness :
  "hola" <> ""
  /\ exists resp c rest s,
       chat_completions_create world_blank_answer (chat_args "hola") = Return resp
       /\ choices resp = c :: rest
       /\ content (message c) = Some s
       /\ spaces whitespace s.
Proof.
  apply (empty_advice_means_blank_answer world_blank_answer wav_upload
           {| transcription := "hola"; advice := "" |}
           [CallTranscription (transcription_args wav_upload riff);
            CallChat (chat_args "hola")]);
    reflexivity.
Defined.

Lemma append_cancel_l (a s t : str) : a ++ s = a ++ t -> s = t.
Proof. induction a as [|x a IH]; cbn; [auto | intros [= H]; auto]. Qed.

Lemma append_cancel_r (a s t : str) : s ++ a = t ++ a -> s = t.
Proof.
  intros H. apply (f_equal rev) in H. rewrite !rev_app in H.
  apply append_cancel_l in H.
  rewrite <- (rev_involutive s), <- (rev_involutive t). now f_equal.
Qed.

(** X11.  The transcription can be read back from the user message:
    different transcriptions give different user messages, hence different
    chat calls. *)
Theorem user_message_injective (T1 T2 : str) :
  T1 <> T2 ->
  user_message T1 <> user_message T2 /\ chat_args T1 <> chat_args T2.
Proof.
  intros Hdiff.
  assert (Hmsg : user_message T1 <> user_message T2).
  { intros H. apply Hdiff. unfold user_message in H.
    rewrite <- !append_assoc in H.
    apply append_cancel_r in H. apply append_cancel_r in H.
    apply append_cancel_r in H. rewrite !append_assoc in H.
    do 3 apply append_cancel_l in H. exact H. }
  split; [exact Hmsg|].
  intros H. apply Hmsg.
  apply (f_equal user_messages) in H. rewrite !user_messages_chat_args in H.
  exact (f_equal (hd "") H).
Qed.

Lemma user_message_injective_witness :
  user_message "hola" <> user_message "hola " /\ chat_args "hola" <> chat_args "hola ".
Proof.
  apply (user_message_injective "hola" "hola "). discriminate.
Defined.

(* ================================================================== *)
(** ** Module start-up *)
(* ================================================================== *)

(** X12.  Start-up yields a client exactly when OPENAI_API_KEY is set to a
    non-empty value and the constructor, called with that very value,
    returns one.  A key that is absent or empty stops start-up with the
    message "OPENAI_API_KEY environment variable not set.", whatever the
    constructor would do; an exception of the constructor stops it with
    that exception. *)
Theorem startup_requires_key {Client : Type} (getenv : str -> option str)
    (OpenAI : str -> Outcome exn Client) :
  (forall client,
      startup getenv OpenAI = Return client <->
      exists api_key,
        getenv "OPENAI_API_KEY" = Some api_key
        /\ api_key <> ""
        /\ OpenAI api_key = Return client)
  /\ (getenv "OPENAI_API_KEY" = None \/ getenv "OPENAI_API_KEY" = Some "" ->
      startup getenv OpenAI =
      Raise (OtherException "OPENAI_API_KEY environment variable not set."))
  /\ (forall api_key e,
        getenv "OPENAI_API_KEY" = Some api_key ->
        api_key <> "" ->
        OpenAI api_key = Raise e ->
        startup getenv OpenAI = Raise e).
Proof.
  unfold startup. split; [|split].
  - intros client. split.
    + destruct (getenv "OPENAI_API_KEY") as [[|a k]|]; cbn; try discriminate.
      destruct (OpenAI (String a k)) as [c|e] eqn:Hc; [|discriminate].
      intros [= <-]. exists (String a k). split; [reflexivity|].
      split; [discriminate | exact Hc].
    + intros (k & -> & Hne & Hc). apply truthy_nonempty in Hne.
      now rewrite Hne, Hc.
  - intros [-> | ->]; reflexivity.
  - intros k e -> Hne Hc. apply truthy_nonempty in Hne. now rewrite Hne, Hc.
Qed.

Lemma startup_requires_key_witness :
  startup env_with_key keep_key = Return "sk-test"
  /\ startup env_empty_key keep_key =
     Raise (OtherException "OPENAI_API_KEY environment variable not set.")
  /\ startup env_with_key (fun _ => @Raise exn str (OpenAIError "bad client")) =
     Raise (OpenAIError "bad client").
Proof.
  split; [|split].
  - apply (proj1 (startup_requires_key env_with_key keep_key)).
    exists "sk-test". split; [reflexivity|]. split; [discriminate | reflexivity].
  - apply (proj1 (proj2 (startup_requires_key env_empty_key keep_key))).
    right. reflexivity.
  - apply (proj2 (proj2 (startup_requires_key env_with_key
                           (fun _ => @Raise exn str (OpenAIError "bad client"))))
             "sk-test" (OpenAIError "bad client")).
    + reflexivity.
    + discriminate.
    + reflexivity.
Defined.
